(** * PartitionSegmentWithPopover.stories.tsx

    A shallow embedding of the Storybook fixture
    [ui-core/src/assets/AutoMaterializePolicyPage/__stories__/PartitionSegmentWithPopover.stories.tsx]
    and the properties of the mock data its four stories build.

    Conventions of the embedding:
    - a JS string is a [string] of 8-bit characters; [toLowerCase] is the
      ASCII case mapping, which is what the English word lists of faker need;
    - a JS array is a list of slots, a slot being either a hole (an index
      the array has no property for) or a value, so that [new Array(n)],
      [fill] and [map] are three different steps, as in the source;
    - the length passed to [new Array] is a natural number;
    - code that reads the random generator of faker runs in a state monad
      over the program state [World]; faker itself is a parameter. *)

From Stdlib Require Import String Ascii List Arith Bool Lia.
Import ListNotations.

Local Open Scope string_scope.
Local Open Scope list_scope.

(** ** JS strings *)

Module JsString.

Definition space : ascii := " "%char.
Definition hyphen : ascii := "-"%char.

Definition is_upper (c : ascii) : bool :=
  let n := nat_of_ascii c in Nat.leb 65 n && Nat.leb n 90.

Definition lower_char (c : ascii) : ascii :=
  if is_upper c then ascii_of_nat (nat_of_ascii c + 32) else c.

(** [String.prototype.toLowerCase] *)
Fixpoint toLowerCase (s : string) : string :=
  match s with
  | EmptyString => EmptyString
  | String c r => String (lower_char c) (toLowerCase r)
  end.

(** [s.replace(/c/g, d)] for a pattern that is one literal character:
    every occurrence of [c] is replaced, left to right. *)
Fixpoint replace_g (c d : ascii) (s : string) : string :=
  match s with
  | EmptyString => EmptyString
  | String x r => String (if Ascii.eqb x c then d else x) (replace_g c d r)
  end.

(** Number of occurrences of a character. *)
Fixpoint occurrences (c : ascii) (s : string) : nat :=
  match s with
  | EmptyString => 0
  | String x r => (if Ascii.eqb x c then 1 else 0) + occurrences c r
  end.

(** The string has no occurrence of [c]. *)
Fixpoint lacks (c : ascii) (s : string) : bool :=
  match s with
  | EmptyString => true
  | String x r => negb (Ascii.eqb x c) && lacks c r
  end.

(** No character of the string is an upper-case letter. *)
Fixpoint is_lowercase (s : string) : bool :=
  match s with
  | EmptyString => true
  | String x r => negb (is_upper x) && is_lowercase r
  end.

Definition is_lower_letter (c : ascii) : bool :=
  let n := nat_of_ascii c in Nat.leb 97 n && Nat.leb n 122.

Definition is_letter (c : ascii) : bool := is_upper c || is_lower_letter c.

Fixpoint all_chars (f : ascii -> bool) (s : string) : bool :=
  match s with
  | EmptyString => true
  | String x r => f x && all_chars f r
  end.

(** A word: one or more letters, and nothing else. *)
Definition is_word (s : string) : bool :=
  match s with
  | EmptyString => false
  | String _ _ => all_chars is_letter s
  end.

(** A lower-case word: one or more of the letters a to z. *)
Definition is_lower_word (s : string) : bool :=
  match s with
  | EmptyString => false
  | String _ _ => all_chars is_lower_letter s
  end.

End JsString.

(** ** JS arrays with holes *)

Module JsArray.

Definition t (A : Type) : Type := list (option A).

(** [new Array(n)]: [n] empty slots. *)
Definition new_Array {A : Type} (n : nat) : t A := repeat None n.

(** [a.fill(v)]: every index below the length gets [v], holes too. *)
Definition fill {A B : Type} (v : B) (a : t A) : t B :=
  List.map (fun _ => Some v) a.

Definition length {A : Type} (a : t A) : nat := List.length a.

(** The slots that hold a value, in index order. *)
Fixpoint values {A : Type} (a : t A) : list A :=
  match a with
  | [] => []
  | None :: r => values r
  | Some v :: r => v :: values r
  end.

Definition dense {A : Type} (a : t A) : bool :=
  forallb (fun s => match s with Some _ => true | None => false end) a.

End JsArray.

(** ** Effects: the state monad of code that draws random words *)

Section Effects.

Variable World : Type.

Definition M (A : Type) : Type := World -> A * World.

Definition ret {A : Type} (x : A) : M A := fun w => (x, w).

Definition bind {A B : Type} (m : M A) (k : A -> M B) : M B :=
  fun w => let (x, w') := m w in k x w'.

(** [a.map(cb)]: the callback runs once per index that holds a value, in
    ascending index order; a hole stays a hole and the callback is not
    called for it. *)
Fixpoint Array_map {A B : Type} (cb : A -> M B) (a : JsArray.t A) : M (JsArray.t B) :=
  match a with
  | [] => ret []
  | None :: r => bind (Array_map cb r) (fun r' => ret (None :: r'))
  | Some v :: r =>
      bind (cb v) (fun y => bind (Array_map cb r) (fun r' => ret (Some y :: r')))
  end.

End Effects.

Arguments ret {World A} x.
Arguments bind {World A B} m k.
Arguments Array_map {World A B} cb a.

Declare Scope js_scope.
Delimit Scope js_scope with js.
Notation "x <- m ;; k" := (bind m (fun x => k))
  (at level 61, m at next level, right associativity) : js_scope.

Local Open Scope js_scope.

(** ** Values and types the fixture imports *)

Inductive JsValue : Type :=
| undefined
| null
| JsBool (b : bool)
| JsStr (s : string).

(** Modelled from the spec: the enumeration [AssetConditionEvaluationStatus]
    is declared in [graphql/types], which is not among the sources; the
    stories use the three outcomes the spec lists. *)
Inductive AssetConditionEvaluationStatus : Type :=
| TRUE
| FALSE
| SKIPPED.

(** A range of partition keys; the fixture never builds one. *)
Record PartitionKeyRange : Type := {
  range_start : string;
  range_end : string
}.

Record AssetKey : Type := {
  path : list string
}.

Record SubsetValue : Type := {
  boolValue : option bool;
  partitionKeys : JsArray.t string;
  partitionKeyRanges : option (list PartitionKeyRange);
  isPartitioned : bool
}.

Record Subset : Type := {
  assetKey : AssetKey;
  subsetValue : SubsetValue
}.

(** ** A deterministic stand-in for faker

    The generator state is the sequence of words still to come;
    [words count] takes the next [count] of them and joins them with one
    space, which is how faker builds a phrase. *)

Module Tape.

Definition t : Type := nat -> string.

Definition words (count : nat) : M t string := fun tape =>
  (String.concat " " (List.map tape (seq 0 count)), fun i => tape (count + i)).

Definition constant (word : string) : t := fun _ => word.

Definition of_list (ws : list string) : t := fun i => nth i ws "".

Definition sample : t := of_list ["Foo"; "Bar"; "Baz"; "Qux"].

(** Two words of the word lists of faker, the first with a hyphen of its
    own. *)
Definition hyphenated : t := of_list ["Enterprise-wide"; "Orchestrator"].

End Tape.

(** ** The fixture *)

Section Fixture.

Variable World : Type.

(** [faker.random.words(count)]: reads and advances the generator of
    faker, which is part of the program state. *)
Variable faker_random_words : nat -> M World string.

Record Props : Type := {
  description : string;
  status : AssetConditionEvaluationStatus;
  subset : Subset;
  selectPartition : JsValue -> M World JsValue
}.

Inductive Element : Type :=
| Box (flex_direction : string) (child : Element)
| PartitionSegmentWithPopover (props : Props).

(** [React.useMemo(factory, [])]: the factory runs when the memo cell of
    the component is empty; with no dependency the stored value is
    returned on every later render. *)
Definition useMemo {A : Type} (factory : M World A) (cell : option A)
  : M World (A * option A) :=
  match cell with
  | Some v => ret (v, cell)
  | None => v <- factory ;; ret (v, Some v)
  end.

Definition PARTITION_COUNT : nat := 300.

(** [phrase.toLowerCase().replace(/ /g, '-')] *)
Definition label (phrase : string) : string :=
  JsString.replace_g JsString.space JsString.hyphen
    (JsString.toLowerCase phrase).

(** The callback given to [map]:
    [() => faker.random.words(2).toLowerCase().replace(/ /g, '-')]. *)
Definition randomLabel (_ : JsValue) : M World string :=
  phrase <- faker_random_words 2 ;; ret (label phrase).

(** [new Array(n).fill(null).map(() => ...)] *)
Definition newPartitionKeys (n : nat) : M World (JsArray.t string) :=
  Array_map randomLabel (JsArray.fill null (JsArray.new_Array (A := JsValue) n)).

(** A story is a function component: it reads and updates its memo cell
    and returns the element tree. *)
Definition Story : Type := option Subset -> M World (Element * option Subset).

Definition TruePartitions_subset : M World Subset :=
  partitionKeys <- newPartitionKeys PARTITION_COUNT ;;
  ret {| assetKey := {| path := ["foo"; "bar"] |};
         subsetValue :=
           {| boolValue := Some true;
              partitionKeys := partitionKeys;
              partitionKeyRanges := None;
              isPartitioned := true |} |}.

Definition TruePartitions : Story := fun cell =>
  r <- useMemo TruePartitions_subset cell ;;
  let subset := fst r in
  ret (Box "row"
         (PartitionSegmentWithPopover
            {| description := "is_missing";
               status := TRUE;
               subset := subset;
               selectPartition := fun _ => ret undefined |}),
       snd r).

Definition FalsePartitions_subset : M World Subset :=
  partitionKeys <- newPartitionKeys PARTITION_COUNT ;;
  ret {| assetKey := {| path := ["foo"; "bar"] |};
         subsetValue :=
           {| boolValue := Some false;
              partitionKeys := partitionKeys;
              partitionKeyRanges := None;
              isPartitioned := true |} |}.

Definition FalsePartitions : Story := fun cell =>
  r <- useMemo FalsePartitions_subset cell ;;
  let subset := fst r in
  ret (Box "row"
         (PartitionSegmentWithPopover
            {| description := "is_missing";
               status := FALSE;
               subset := subset;
               selectPartition := fun _ => ret undefined |}),
       snd r).

Definition SkippedPartitions_subset : M World Subset :=
  partitionKeys <- newPartitionKeys PARTITION_COUNT ;;
  ret {| assetKey := {| path := ["foo"; "bar"] |};
         subsetValue :=
           {| boolValue := None;
              partitionKeys := partitionKeys;
              partitionKeyRanges := None;
              isPartitioned := true |} |}.

Definition SkippedPartitions : Story := fun cell =>
  r <- useMemo SkippedPartitions_subset cell ;;
  let subset := fst r in
  ret (Box "row"
         (PartitionSegmentWithPopover
            {| description := "is_missing";
               status := SKIPPED;
               subset := subset;
               selectPartition := fun _ => ret undefined |}),
       snd r).

Definition FewPartitions_subset : M World Subset :=
  partitionKeys <- newPartitionKeys 2 ;;
  ret {| assetKey := {| path := ["foo"; "bar"] |};
         subsetValue :=
           {| boolValue := Some true;
              partitionKeys := partitionKeys;
              partitionKeyRanges := None;
              isPartitioned := true |} |}.

Definition FewPartitions : Story := fun cell =>
  r <- useMemo FewPartitions_subset cell ;;
  let subset := fst r in
  ret (Box "row"
         (PartitionSegmentWithPopover
            {| description := "is_missing";
               status := TRUE;
               subset := subset;
               selectPartition := fun _ => ret undefined |}),
       snd r).

(** The stories the module exports. *)
Definition stories : list Story :=
  [TruePartitions; FalsePartitions; SkippedPartitions; FewPartitions].

(** The props the rendered tree hands to [PartitionSegmentWithPopover]. *)
Fixpoint props_of (e : Element) : Props :=
  match e with
  | Box _ child => props_of child
  | PartitionSegmentWithPopover p => p
  end.

(** First render of a story: the memo cell is empty. *)
Definition mount (story : Story) (w : World) : Props :=
  props_of (fst (fst (story None w))).

(** What the first render of a story puts in [subsetValue.boolValue] and
    in [subsetValue.partitionKeys]. *)
Definition boolValue_of (story : Story) (w : World) : option bool :=
  boolValue (subsetValue (subset (mount story w))).

Definition keys_of (story : Story) (w : World) : JsArray.t string :=
  partitionKeys (subsetValue (subset (mount story w))).

(** The phrases that [n] successive calls of [faker.random.words(2)]
    return, oldest first. *)
Fixpoint phrases (n : nat) : M World (list string) :=
  match n with
  | 0 => ret []
  | S k => p <- faker_random_words 2 ;; r <- phrases k ;; ret (p :: r)
  end.

(** Lower-case words joined by a single hyphen: two words, each one or
    more of the letters a to z, with one hyphen between them and nothing
    else. *)
Definition TwoLowerWords (l : string) : Prop :=
  exists v1 v2,
    l = (v1 ++ "-" ++ v2)%string /\
    JsString.is_lower_word v1 = true /\
    JsString.is_lower_word v2 = true.

(** The state of the generator after one call of [faker.random.words(2)],
    and after [n] calls in a row. *)
Definition after_draw (w : World) : World := snd (faker_random_words 2 w).

Definition after_draws (n : nat) (w : World) : World := Nat.iter n after_draw w.

End Fixture.

Arguments Box {World} flex_direction child.
Arguments PartitionSegmentWithPopover {World} props.
Arguments description {World} p.
Arguments status {World} p.
Arguments subset {World} p.
Arguments selectPartition {World} p.
Arguments useMemo {World A} factory cell.
Arguments randomLabel {World} faker_random_words _.
Arguments newPartitionKeys {World} faker_random_words n.
Arguments TruePartitions {World} faker_random_words.
Arguments FalsePartitions {World} faker_random_words.
Arguments SkippedPartitions {World} faker_random_words.
Arguments FewPartitions {World} faker_random_words.
Arguments stories {World} faker_random_words.
Arguments props_of {World} e.
Arguments mount {World} story w.
Arguments phrases {World} faker_random_words n.
Arguments boolValue_of {World} story w.
Arguments keys_of {World} story w.
Arguments after_draw {World} faker_random_words w.
Arguments after_draws {World} faker_random_words n w.

(** ** Sanity checks on concrete inputs *)

Example label_two_words : label "Home Loan" = "home-loan".
Proof. reflexivity. Qed.

Example label_keeps_inner_hyphen : label "Multi-byte Account" = "multi-byte-account".
Proof. reflexivity. Qed.

Example map_skips_holes :
  fst (Array_map (randomLabel Tape.words) (JsArray.new_Array 3) (Tape.constant "x"))
  = [None; None; None].
Proof. reflexivity. Qed.

Example keys_from_tape :
  fst (newPartitionKeys Tape.words 2 (Tape.of_list ["Foo"; "Bar"; "Baz"; "Qux"]))
  = [Some "foo-bar"; Some "baz-qux"].
Proof. reflexivity. Qed.

(** ** Facts about the string operations *)

Module JsStringFacts.
Import JsString.

Lemma lower_char_not_upper (c : ascii) : is_upper (lower_char c) = false.
Proof.
  destruct c as [b0 b1 b2 b3 b4 b5 b6 b7].
  destruct b0, b1, b2, b3, b4, b5, b6, b7; reflexivity.
Qed.

Lemma lower_char_eqb_space (c : ascii) :
  Ascii.eqb (lower_char c) space = Ascii.eqb c space.
Proof.
  destruct c as [b0 b1 b2 b3 b4 b5 b6 b7].
  destruct b0, b1, b2, b3, b4, b5, b6, b7; reflexivity.
Qed.

Lemma toLowerCase_app (s1 s2 : string) :
  toLowerCase (s1 ++ s2) = (toLowerCase s1 ++ toLowerCase s2)%string.
Proof.
  induction s1 as [|c r IH]; simpl; [reflexivity | now rewrite IH].
Qed.

Lemma replace_g_app (c d : ascii) (s1 s2 : string) :
  replace_g c d (s1 ++ s2) = (replace_g c d s1 ++ replace_g c d s2)%string.
Proof.
  induction s1 as [|x r IH]; simpl; [reflexivity | now rewrite IH].
Qed.

Lemma is_lowercase_toLowerCase (s : string) : is_lowercase (toLowerCase s) = true.
Proof.
  induction s as [|c r IH]; simpl; [reflexivity|].
  now rewrite lower_char_not_upper, IH.
Qed.

Lemma lacks_space_toLowerCase (s : string) :
  lacks space (toLowerCase s) = lacks space s.
Proof.
  induction s as [|c r IH]; simpl; [reflexivity|].
  now rewrite lower_char_eqb_space, IH.
Qed.

Lemma replace_g_lacks (c d : ascii) (s : string) :
  lacks c s = true -> replace_g c d s = s.
Proof.
  induction s as [|x r IH]; simpl; [reflexivity|].
  intros H. apply andb_true_iff in H. destruct H as [Hx Hr].
  apply negb_true_iff in Hx. rewrite Hx. now rewrite IH.
Qed.

Lemma lacks_replace_g (c d : ascii) (s : string) :
  Ascii.eqb d c = false -> lacks c (replace_g c d s) = true.
Proof.
  intros Hd. induction s as [|x r IH]; simpl; [reflexivity|].
  rewrite IH, andb_true_r.
  destruct (Ascii.eqb x c) eqn:E; [now rewrite Hd | now rewrite E].
Qed.

Lemma is_lowercase_replace_g (c d : ascii) (s : string) :
  is_upper d = false -> is_lowercase s = true ->
  is_lowercase (replace_g c d s) = true.
Proof.
  intros Hd. induction s as [|x r IH]; simpl; [reflexivity|].
  intros H. apply andb_true_iff in H. destruct H as [Hx Hr].
  rewrite (IH Hr), andb_true_r.
  destruct (Ascii.eqb x c); [now rewrite Hd | exact Hx].
Qed.

Lemma occurrences_app (c : ascii) (s1 s2 : string) :
  occurrences c (s1 ++ s2) = occurrences c s1 + occurrences c s2.
Proof.
  induction s1 as [|x r IH]; simpl; [reflexivity | rewrite IH; lia].
Qed.

Lemma lower_char_eqb_hyphen (c : ascii) :
  Ascii.eqb (lower_char c) hyphen = Ascii.eqb c hyphen.
Proof.
  destruct c as [b0 b1 b2 b3 b4 b5 b6 b7].
  destruct b0, b1, b2, b3, b4, b5, b6, b7; reflexivity.
Qed.

Lemma occurrences_hyphen_toLowerCase (s : string) :
  occurrences hyphen (toLowerCase s) = occurrences hyphen s.
Proof.
  induction s as [|c r IH]; simpl; [reflexivity|].
  now rewrite lower_char_eqb_hyphen, IH.
Qed.

Lemma occurrences_space_toLowerCase (s : string) :
  occurrences space (toLowerCase s) = occurrences space s.
Proof.
  induction s as [|c r IH]; simpl; [reflexivity|].
  now rewrite lower_char_eqb_space, IH.
Qed.

Lemma occurrences_replace_space (s : string) :
  occurrences hyphen (replace_g space hyphen s)
  = occurrences hyphen s + occurrences space s.
Proof.
  induction s as [|c r IH]; simpl; [reflexivity|]. rewrite IH.
  destruct (Ascii.eqb c space) eqn:Es.
  - apply Ascii.eqb_eq in Es. subst c. simpl. lia.
  - destruct (Ascii.eqb c hyphen); lia.
Qed.

Lemma lower_char_letter (c : ascii) :
  is_letter c = true -> is_lower_letter (lower_char c) = true.
Proof.
  destruct c as [b0 b1 b2 b3 b4 b5 b6 b7].
  destruct b0, b1, b2, b3, b4, b5, b6, b7; intros H;
    first [reflexivity | discriminate H].
Qed.

Lemma lower_letter_not_hyphen (c : ascii) :
  is_lower_letter c = true -> Ascii.eqb c hyphen = false.
Proof.
  destruct c as [b0 b1 b2 b3 b4 b5 b6 b7].
  destruct b0, b1, b2, b3, b4, b5, b6, b7; intros H;
    first [reflexivity | discriminate H].
Qed.

Lemma all_letters_toLowerCase (s : string) :
  all_chars is_letter s = true ->
  all_chars is_lower_letter (toLowerCase s) = true.
Proof.
  induction s as [|c r IH]; simpl; [reflexivity|].
  intros H. apply andb_true_iff in H. destruct H as [Hc Hr].
  now rewrite (lower_char_letter c Hc), (IH Hr).
Qed.

Lemma is_word_toLowerCase (s : string) :
  is_word s = true -> is_lower_word (toLowerCase s) = true.
Proof.
  destruct s as [|c r]; [discriminate|].
  intros H. exact (all_letters_toLowerCase (String c r) H).
Qed.

Lemma lower_letters_no_hyphen (s : string) :
  all_chars is_lower_letter s = true -> occurrences hyphen s = 0.
Proof.
  induction s as [|c r IH]; simpl; [reflexivity|].
  intros H. apply andb_true_iff in H. destruct H as [Hc Hr].
  now rewrite (lower_letter_not_hyphen c Hc), (IH Hr).
Qed.

Lemma is_lower_word_no_hyphen (s : string) :
  is_lower_word s = true -> occurrences hyphen s = 0.
Proof.
  destruct s as [|c r]; [discriminate|].
  intros H. exact (lower_letters_no_hyphen (String c r) H).
Qed.

End JsStringFacts.

(** ** Facts about [label] *)

Section LabelFacts.
Import JsString JsStringFacts.

Lemma label_lacks_space (p : string) : lacks space (label p) = true.
Proof. unfold label. now apply lacks_replace_g. Qed.

Lemma label_is_lowercase (p : string) : is_lowercase (label p) = true.
Proof.
  unfold label. apply is_lowercase_replace_g; [reflexivity|].
  apply is_lowercase_toLowerCase.
Qed.

(** The label has one more hyphen for each space of the phrase. *)
Lemma label_hyphens (p : string) :
  occurrences hyphen (label p) = occurrences hyphen p + occurrences space p.
Proof.
  unfold label.
  now rewrite occurrences_replace_space, occurrences_hyphen_toLowerCase,
    occurrences_space_toLowerCase.
Qed.

Lemma label_word (w : string) :
  lacks space w = true -> label w = toLowerCase w.
Proof.
  intros H. unfold label. apply replace_g_lacks.
  now rewrite lacks_space_toLowerCase.
Qed.

Lemma label_app (p q : string) : label (p ++ q) = (label p ++ label q)%string.
Proof. unfold label. now rewrite toLowerCase_app, replace_g_app. Qed.

Lemma label_two (w1 w2 : string) :
  lacks space w1 = true -> lacks space w2 = true ->
  label (w1 ++ " " ++ w2) = (toLowerCase w1 ++ "-" ++ toLowerCase w2)%string.
Proof.
  intros H1 H2. rewrite !label_app, (label_word w1 H1), (label_word w2 H2).
  reflexivity.
Qed.

Lemma TwoLowerWords_hyphens (l : string) :
  TwoLowerWords l -> occurrences hyphen l = 1.
Proof.
  intros (v1 & v2 & -> & H1 & H2).
  rewrite !occurrences_app, (is_lower_word_no_hyphen v1 H1),
    (is_lower_word_no_hyphen v2 H2).
  reflexivity.
Qed.

Lemma Forall2_label (P : string -> string -> Prop) (ps : list string) :
  (forall p, P p (label p)) -> Forall2 P ps (List.map label ps).
Proof.
  intros H. induction ps as [|p r IH]; simpl; constructor; [apply H | exact IH].
Qed.

End LabelFacts.

(** ** Facts about arrays *)

Section ArrayFacts.
Variable World : Type.
Variables A B : Type.
Variable cb : A -> M World B.

Lemma new_Array_length (n : nat) : JsArray.length (JsArray.new_Array (A := A) n) = n.
Proof. apply repeat_length. Qed.

Lemma fill_length (v : B) (a : JsArray.t A) :
  JsArray.length (JsArray.fill v a) = JsArray.length a.
Proof. apply length_map. Qed.

Lemma fill_new_Array (v : B) (n : nat) :
  JsArray.fill v (JsArray.new_Array (A := A) n) = repeat (Some v) n.
Proof.
  unfold JsArray.fill, JsArray.new_Array.
  induction n as [|k IH]; simpl; [reflexivity | now rewrite IH].
Qed.

Lemma Array_map_length (a : JsArray.t A) (w : World) :
  JsArray.length (fst (Array_map cb a w)) = JsArray.length a.
Proof.
  revert w. induction a as [|[v|] r IH]; intros w; simpl.
  - reflexivity.
  - unfold bind at 1. destruct (cb v w) as [y w1].
    unfold bind, ret. specialize (IH w1).
    destruct (Array_map cb r w1) as [r' w2]. simpl in *. now rewrite IH.
  - unfold bind, ret. specialize (IH w).
    destruct (Array_map cb r w) as [r' w2]. simpl in *. now rewrite IH.
Qed.

(** On an array without holes the callback runs at every index. *)
Lemma Array_map_dense (a : JsArray.t A) (w : World) :
  JsArray.dense a = true -> JsArray.dense (fst (Array_map cb a w)) = true.
Proof.
  revert w. induction a as [|[v|] r IH]; intros w; simpl; try discriminate.
  - reflexivity.
  - intros Hr. unfold bind at 1. destruct (cb v w) as [y w1].
    unfold bind, ret. specialize (IH w1 Hr).
    destruct (Array_map cb r w1) as [r' w2]. exact IH.
Qed.

Lemma dense_values_length (a : JsArray.t B) :
  JsArray.dense a = true -> List.length (JsArray.values a) = JsArray.length a.
Proof.
  induction a as [|[v|] r IH]; simpl; try discriminate.
  - reflexivity.
  - intros Hr. now rewrite (IH Hr).
Qed.

End ArrayFacts.

(** ** The label generator *)

Section GeneratorFacts.
Variable World : Type.
Variable faker_random_words : nat -> M World string.

Local Abbreviation keys := (newPartitionKeys faker_random_words).
Local Abbreviation drawn := (phrases faker_random_words).

(** The generator returns the labels of the phrases faker hands out, in
    the order of the calls, and leaves the state those calls leave. *)
Lemma newPartitionKeys_phrases (n : nat) (w : World) :
  keys n w = (List.map (fun p => Some (label p)) (fst (drawn n w)), snd (drawn n w)).
Proof.
  unfold newPartitionKeys. rewrite fill_new_Array.
  revert w. induction n as [|k IH]; intros w; simpl; [reflexivity|].
  unfold randomLabel, bind, ret in *.
  destruct (faker_random_words 2 w) as [p w1].
  rewrite (IH w1). destruct (phrases faker_random_words k w1) as [ps w2].
  reflexivity.
Qed.

Lemma phrases_length (n : nat) (w : World) : List.length (fst (drawn n w)) = n.
Proof.
  revert w. induction n as [|k IH]; intros w; simpl; [reflexivity|].
  unfold bind, ret. destruct (faker_random_words 2 w) as [p w1].
  specialize (IH w1). destruct (phrases faker_random_words k w1) as [ps w2].
  simpl in *. now rewrite IH.
Qed.

Lemma values_map_Some {X Y : Type} (f : X -> Y) (l : list X) :
  JsArray.values (List.map (fun x => Some (f x)) l) = List.map f l.
Proof. induction l as [|x r IH]; simpl; [reflexivity | now rewrite IH]. Qed.

Lemma newPartitionKeys_values (n : nat) (w : World) :
  JsArray.values (fst (keys n w)) = List.map label (fst (drawn n w)).
Proof. rewrite newPartitionKeys_phrases. simpl. apply values_map_Some. Qed.

Lemma newPartitionKeys_length (n : nat) (w : World) :
  JsArray.length (fst (keys n w)) = n.
Proof.
  unfold newPartitionKeys.
  now rewrite Array_map_length, fill_length, new_Array_length.
Qed.

Lemma newPartitionKeys_dense (n : nat) (w : World) :
  JsArray.dense (fst (keys n w)) = true.
Proof.
  unfold newPartitionKeys. apply Array_map_dense.
  rewrite fill_new_Array. induction n as [|k IH]; simpl; [reflexivity | exact IH].
Qed.

(** C1. For every requested count [n], the array the generator returns
    has exactly [n] entries: its length is [n] and each of its [n] slots
    holds a label. *)
Theorem newPartitionKeys_count (n : nat) (w : World) :
  JsArray.length (fst (keys n w)) = n /\
  List.length (JsArray.values (fst (keys n w))) = n.
Proof.
  split; [apply newPartitionKeys_length|].
  rewrite dense_values_length by apply newPartitionKeys_dense.
  apply newPartitionKeys_length.
Qed.

(** C2, as amended. The labels answer the drawn phrases one for one, and
    every label has no space and no upper-case letter. When the phrase is
    two words without a space joined by one space, the label is the two
    lower-cased words joined by one hyphen; when both words are made of
    letters only, it is two lower-case words joined by a single hyphen. A
    word that has a hyphen of its own keeps it. *)
Theorem newPartitionKeys_two_word_labels (n : nat) (w : World) :
  Forall2
    (fun phrase l =>
       JsString.lacks JsString.space l = true /\
       JsString.is_lowercase l = true /\
       forall w1 w2 : string,
         phrase = (w1 ++ " " ++ w2)%string ->
         JsString.lacks JsString.space w1 = true ->
         JsString.lacks JsString.space w2 = true ->
         l = (JsString.toLowerCase w1 ++ "-" ++ JsString.toLowerCase w2)%string /\
         (JsString.is_word w1 = true -> JsString.is_word w2 = true ->
          TwoLowerWords l))
    (fst (drawn n w)) (JsArray.values (fst (keys n w))).
Proof.
  rewrite newPartitionKeys_values. apply Forall2_label. intros p.
  split; [apply label_lacks_space|].
  split; [apply label_is_lowercase|].
  intros w1 w2 -> H1 H2. rewrite (label_two w1 w2 H1 H2).
  split; [reflexivity|]. intros L1 L2.
  exists (JsString.toLowerCase w1), (JsString.toLowerCase w2).
  split; [reflexivity|].
  split; now apply JsStringFacts.is_word_toLowerCase.
Qed.

End GeneratorFacts.

(** C4. Two runs of the generator with the same count return arrays of the
    same length, whatever the generator states they start from and whatever
    phrases faker returns in each. *)
Theorem newPartitionKeys_same_length
  (W1 W2 : Type) (words1 : nat -> M W1 string) (words2 : nat -> M W2 string)
  (n : nat) (w1 : W1) (w2 : W2) :
  JsArray.length (fst (newPartitionKeys words1 n w1)) =
  JsArray.length (fst (newPartitionKeys words2 n w2)).
Proof. now rewrite !newPartitionKeys_length. Qed.

(** ** The four stories *)

(** Runs the first render of a story symbolically: the factory is entered,
    the array of keys the generator returns is named, and the projections
    of the resulting props are computed. *)
Ltac render_story :=
  unfold mount, TruePartitions, FalsePartitions, SkippedPartitions, FewPartitions,
    TruePartitions_subset, FalsePartitions_subset, SkippedPartitions_subset,
    FewPartitions_subset, useMemo, bind, ret;
  match goal with
  | |- context [newPartitionKeys ?f ?n ?w] =>
      let H := fresh "Hkeys" in
      pose proof (newPartitionKeys_length _ f n w) as H;
      destruct (newPartitionKeys f n w) as [? ?]
  end;
  cbn [fst snd props_of subset subsetValue assetKey path boolValue partitionKeys
       partitionKeyRanges isPartitioned status selectPartition description] in *.

Ltac each_story :=
  unfold stories;
  repeat match goal with
         | |- Forall _ (_ :: _) => constructor
         | |- Forall _ [] => constructor
         end.

Section StoryFacts.
Variable World : Type.
Variable faker_random_words : nat -> M World string.

Local Abbreviation True_ := (TruePartitions faker_random_words).
Local Abbreviation False_ := (FalsePartitions faker_random_words).
Local Abbreviation Skipped_ := (SkippedPartitions faker_random_words).
Local Abbreviation Few_ := (FewPartitions faker_random_words).

(** C3. In each story the tri-state [boolValue] of the subset agrees with
    the status given to the component: [true] with [TRUE], [false] with
    [FALSE], and absent with [SKIPPED]. *)
Theorem boolValue_matches_status (w : World) :
  (boolValue_of True_ w = Some true /\ status (mount True_ w) = TRUE) /\
  (boolValue_of False_ w = Some false /\ status (mount False_ w) = FALSE) /\
  (boolValue_of Skipped_ w = None /\ status (mount Skipped_ w) = SKIPPED) /\
  (boolValue_of Few_ w = Some true /\ status (mount Few_ w) = TRUE) /\
  Forall (fun story =>
            (boolValue_of story w = Some true /\ status (mount story w) = TRUE) \/
            (boolValue_of story w = Some false /\ status (mount story w) = FALSE) \/
            (boolValue_of story w = None /\ status (mount story w) = SKIPPED))
         (stories faker_random_words).
Proof.
  unfold boolValue_of.
  repeat match goal with |- _ /\ _ => split end;
    try (render_story; reflexivity).
  each_story; render_story; auto.
Qed.

(** C5. The array of partition keys has [PARTITION_COUNT], that is 300,
    entries in [TruePartitions], [FalsePartitions] and [SkippedPartitions],
    and 2 entries in [FewPartitions]: that many slots, each of them holding
    a key. *)
Theorem partitionKeys_cardinality (w : World) :
  PARTITION_COUNT = 300 /\
  (JsArray.length (keys_of True_ w) = 300 /\
   List.length (JsArray.values (keys_of True_ w)) = 300) /\
  (JsArray.length (keys_of False_ w) = 300 /\
   List.length (JsArray.values (keys_of False_ w)) = 300) /\
  (JsArray.length (keys_of Skipped_ w) = 300 /\
   List.length (JsArray.values (keys_of Skipped_ w)) = 300) /\
  (JsArray.length (keys_of Few_ w) = 2 /\
   List.length (JsArray.values (keys_of Few_ w)) = 2).
Proof.
  unfold keys_of.
  repeat match goal with |- _ /\ _ => split end;
    try reflexivity;
    unfold mount, TruePartitions, FalsePartitions, SkippedPartitions,
      FewPartitions, TruePartitions_subset, FalsePartitions_subset,
      SkippedPartitions_subset, FewPartitions_subset, useMemo, bind, ret;
    match goal with
    | |- context [newPartitionKeys ?f ?n ?w] =>
        pose proof (newPartitionKeys_length _ f n w) as Hlen;
        pose proof (newPartitionKeys_dense _ f n w) as Hdense;
        destruct (newPartitionKeys f n w) as [ks w']
    end;
    cbn [fst snd props_of subset subsetValue partitionKeys] in *;
    rewrite ?(dense_values_length _ ks Hdense); exact Hlen.
Qed.

(** C6. In the subset every story builds, [partitionKeyRanges] is absent. *)
Theorem partitionKeyRanges_absent (w : World) :
  Forall (fun story =>
            partitionKeyRanges (subsetValue (subset (mount story w))) = None)
         (stories faker_random_words).
Proof. each_story; render_story; reflexivity. Qed.

(** C7. In the subset every story builds, [isPartitioned] is [true]. *)
Theorem isPartitioned_true (w : World) :
  Forall (fun story =>
            isPartitioned (subsetValue (subset (mount story w))) = true)
         (stories faker_random_words).
Proof. each_story; render_story; reflexivity. Qed.

(** C8. In the subset every story builds, the asset key is the path
    [foo], [bar], in this order. *)
Theorem assetKey_constant (w : World) :
  Forall (fun story => path (assetKey (subset (mount story w))) = ["foo"; "bar"])
         (stories faker_random_words).
Proof. each_story; render_story; reflexivity. Qed.

(** C9. The [selectPartition] callback every story passes does nothing:
    called with any argument in any state it returns [undefined] and
    leaves the state as it was. *)
Theorem selectPartition_noop (w : World) :
  Forall (fun story =>
            forall (arg : JsValue) (w' : World),
              selectPartition (mount story w) arg w' = (undefined, w'))
         (stories faker_random_words).
Proof. each_story; render_story; reflexivity. Qed.

(** A later render finds the memo cell filled: it returns the same tree
    and does not touch the generator. *)
Lemma rerender_reuses_subset (w w' : World) :
  Forall (fun story : Story World =>
            let first := story None w in
            story (snd (fst first)) w' = (fst first, w'))
         (stories faker_random_words).
Proof.
  each_story;
    unfold TruePartitions, FalsePartitions, SkippedPartitions, FewPartitions,
      TruePartitions_subset, FalsePartitions_subset, SkippedPartitions_subset,
      FewPartitions_subset, useMemo, bind, ret;
    match goal with
    | |- context [newPartitionKeys ?f ?n ?w] =>
        destruct (newPartitionKeys f n w) as [? ?]
    end; reflexivity.
Qed.

End StoryFacts.

(** ** Repeated draws *)

Lemma phrases_constant_tape (word : string) (n : nat) :
  phrases Tape.words n (Tape.constant word)
  = (repeat (word ++ " " ++ word)%string n, Tape.constant word).
Proof.
  induction n as [|k IH]; simpl; [reflexivity|].
  unfold bind, ret, Tape.words at 1. simpl.
  change (fun i : nat => Tape.constant word (S (S i))) with (Tape.constant word).
  rewrite IH. reflexivity.
Qed.

Lemma repeat_not_NoDup {A : Type} (x : A) (n : nat) :
  2 <= n -> ~ NoDup (repeat x n).
Proof.
  intros Hn H. destruct n as [|[|k]]; try lia.
  simpl in H. inversion H as [|? ? Hnotin _]. apply Hnotin. now left.
Qed.

Lemma map_not_NoDup {A B : Type} (f : A -> B) (l : list A) :
  ~ NoDup l -> ~ NoDup (List.map f l).
Proof. intros H Hm. apply H. exact (NoDup_map_inv f l Hm). Qed.

(** Two different phrases may also give the same label. *)
Example label_collision : "Foo bar" <> "foo-bar" /\ label "Foo bar" = label "foo-bar".
Proof. split; [discriminate | reflexivity]. Qed.

(** C10. The generator does not make its labels distinct. For every count
    [n] of at least 2 there is a sequence of draws for which the generated
    list holds the same label twice; and whenever faker returns the same
    phrase twice among the [n] draws, so does the generated list, all [n]
    labels being kept. *)
Theorem newPartitionKeys_not_distinct (n : nat) :
  2 <= n ->
  (exists tape : Tape.t,
      ~ NoDup (JsArray.values (fst (newPartitionKeys Tape.words n tape)))) /\
  (forall (World : Type) (words : nat -> M World string) (w : World),
      ~ NoDup (fst (phrases words n w)) ->
      ~ NoDup (JsArray.values (fst (newPartitionKeys words n w))) /\
      List.length (JsArray.values (fst (newPartitionKeys words n w))) = n).
Proof.
  intros Hn. split.
  - exists (Tape.constant "word").
    rewrite newPartitionKeys_values, phrases_constant_tape. simpl fst.
    apply map_not_NoDup, repeat_not_NoDup, Hn.
  - intros World words w H. rewrite newPartitionKeys_values. split.
    + now apply map_not_NoDup.
    + rewrite length_map. apply phrases_length.
Qed.

(** ** The theorems at concrete inputs *)

(** The words Foo, Bar, Baz and Qux give the phrases Foo Bar and Baz Qux,
    and the labels foo-bar and baz-qux, each two lower-case words joined by
    a single hyphen. *)
Lemma newPartitionKeys_two_word_labels_witness :
  fst (phrases Tape.words 2 Tape.sample) = ["Foo Bar"; "Baz Qux"] /\
  JsArray.values (fst (newPartitionKeys Tape.words 2 Tape.sample))
  = ["foo-bar"; "baz-qux"] /\
  JsString.is_word "Foo" = true /\ JsString.is_word "Bar" = true /\
  JsString.is_word "Baz" = true /\ JsString.is_word "Qux" = true /\
  TwoLowerWords "foo-bar" /\ TwoLowerWords "baz-qux".
Proof.
  pose proof (newPartitionKeys_two_word_labels Tape.t Tape.words 2 Tape.sample) as H.
  change (fst (phrases Tape.words 2 Tape.sample)) with ["Foo Bar"; "Baz Qux"] in H.
  change (JsArray.values (fst (newPartitionKeys Tape.words 2 Tape.sample)))
    with ["foo-bar"; "baz-qux"] in H.
  inversion H as [|p1 l1 ps1 ls1 (_ & _ & H1) Ht]; subst.
  inversion Ht as [|p2 l2 ps2 ls2 (_ & _ & H2) _]; subst.
  repeat split; try reflexivity.
  - exact (proj2 (H1 "Foo" "Bar" eq_refl eq_refl eq_refl) eq_refl eq_refl).
  - exact (proj2 (H2 "Baz" "Qux" eq_refl eq_refl eq_refl) eq_refl eq_refl).
Defined.

(** C2, as stated, fails. The words Enterprise-wide and Orchestrator, both
    without a space, make a two-word phrase whose label has two hyphens: it
    is not two lower-case words joined by a single hyphen. *)
Lemma newPartitionKeys_single_hyphen_counterexample :
  fst (phrases Tape.words 1 Tape.hyphenated)
  = [("Enterprise-wide" ++ " " ++ "Orchestrator")%string] /\
  JsString.lacks JsString.space "Enterprise-wide" = true /\
  JsString.lacks JsString.space "Orchestrator" = true /\
  JsArray.values (fst (newPartitionKeys Tape.words 1 Tape.hyphenated))
  = ["enterprise-wide-orchestrator"] /\
  JsString.occurrences JsString.hyphen "enterprise-wide-orchestrator" = 2 /\
  ~ Forall TwoLowerWords
      (JsArray.values (fst (newPartitionKeys Tape.words 1 Tape.hyphenated))).
Proof.
  repeat split.
  change (JsArray.values (fst (newPartitionKeys Tape.words 1 Tape.hyphenated)))
    with ["enterprise-wide-orchestrator"].
  intros H. inversion H as [|l ls Hl _]; subst.
  apply TwoLowerWords_hyphens in Hl. discriminate Hl.
Qed.

Lemma newPartitionKeys_not_distinct_witness :
  2 <= 2 /\
  exists tape : Tape.t,
    ~ NoDup (JsArray.values (fst (newPartitionKeys Tape.words 2 tape))).
Proof.
  split; [apply le_n|].
  exact (proj1 (newPartitionKeys_not_distinct 2 (le_n 2))).
Defined.

(** ** Further properties of the label *)

Module LabelProperties.
Import JsString JsStringFacts.

Lemma lower_char_idempotent (c : ascii) : lower_char (lower_char c) = lower_char c.
Proof.
  unfold lower_char at 1. now rewrite lower_char_not_upper.
Qed.

Lemma toLowerCase_idempotent (s : string) :
  toLowerCase (toLowerCase s) = toLowerCase s.
Proof.
  induction s as [|c r IH]; simpl; [reflexivity|].
  now rewrite lower_char_idempotent, IH.
Qed.

Lemma toLowerCase_replace_space (s : string) :
  toLowerCase (replace_g space hyphen s) = replace_g space hyphen (toLowerCase s).
Proof.
  induction s as [|c r IH]; simpl; [reflexivity|].
  rewrite IH, lower_char_eqb_space.
  destruct (Ascii.eqb c space); reflexivity.
Qed.

Lemma replace_g_idempotent (s : string) :
  replace_g space hyphen (replace_g space hyphen s) = replace_g space hyphen s.
Proof. apply replace_g_lacks. now apply lacks_replace_g. Qed.

Lemma lacks_occurrences (c : ascii) (s : string) :
  lacks c s = true -> occurrences c s = 0.
Proof.
  induction s as [|x r IH]; simpl; [reflexivity|].
  intros H. apply andb_true_iff in H. destruct H as [Hx Hr].
  apply negb_true_iff in Hx. rewrite Hx, (IH Hr). reflexivity.
Qed.

Lemma label_concat (ws : list string) :
  label (String.concat " " ws) = String.concat "-" (List.map label ws).
Proof.
  induction ws as [|w [|w' r] IH]; try reflexivity.
  change (String.concat " " (w :: w' :: r))
    with (w ++ " " ++ String.concat " " (w' :: r))%string.
  rewrite !label_app, IH. reflexivity.
Qed.

(** X1. Labelling a label changes nothing: [label] is idempotent. *)
Theorem label_idempotent (p : string) : label (label p) = label p.
Proof.
  unfold label.
  now rewrite toLowerCase_replace_space, toLowerCase_idempotent, replace_g_idempotent.
Qed.

(** X2. The label does not see letter case, nor whether the words of the
    phrase are separated by spaces or by hyphens: lower-casing the phrase
    first, or hyphenating it first, gives the same label. Two different
    phrases can therefore have one label. *)
Theorem label_insensitive (p : string) :
  label (toLowerCase p) = label p /\
  label (replace_g space hyphen p) = label p /\
  (exists q q' : string, q <> q' /\ label q = label q').
Proof.
  unfold label. repeat split.
  - now rewrite toLowerCase_idempotent.
  - now rewrite toLowerCase_replace_space, replace_g_idempotent.
  - exists "Foo bar", "foo-bar". split; [discriminate | reflexivity].
Qed.

(** X3. The label has exactly one hyphen more than the phrase for each
    space of the phrase, and no space is left in it. *)
Theorem label_hyphen_count (p : string) :
  occurrences hyphen (label p) = occurrences hyphen p + occurrences space p /\
  occurrences space (label p) = 0.
Proof.
  split; [apply label_hyphens|].
  apply lacks_occurrences, label_lacks_space.
Qed.

(** X4. For a phrase of any number of words, each without a space and
    joined by one space, the label is the lower-cased words joined by one
    hyphen. A phrase of no word has the empty label, and a one-word phrase
    the lower-cased word with no hyphen added. *)
Theorem label_of_words (ws : list string) :
  Forall (fun w => lacks space w = true) ws ->
  label (String.concat " " ws) = String.concat "-" (List.map toLowerCase ws).
Proof.
  intros H. rewrite label_concat. f_equal.
  induction H as [|w r Hw _ IH]; simpl; [reflexivity|].
  now rewrite (label_word w Hw), IH.
Qed.

Lemma label_of_words_witness :
  Forall (fun w => lacks space w = true) ["Home"; "Loan"; "Account"] /\
  label (String.concat " " ["Home"; "Loan"; "Account"])
  = String.concat "-" (List.map toLowerCase ["Home"; "Loan"; "Account"]).
Proof.
  assert (H : Forall (fun w => lacks space w = true) ["Home"; "Loan"; "Account"]).
  { repeat constructor. }
  split; [exact H | exact (label_of_words _ H)].
Defined.

End LabelProperties.

(** ** Further properties of the generator *)

Section GeneratorProperties.
Variable World : Type.
Variable faker_random_words : nat -> M World string.

Local Abbreviation keys := (newPartitionKeys faker_random_words).
Local Abbreviation drawn := (phrases faker_random_words).
Local Abbreviation state_after := (after_draws faker_random_words).

Lemma after_draws_succ_r (n : nat) (w : World) :
  state_after (S n) w = state_after n (after_draw faker_random_words w).
Proof. unfold after_draws. apply Nat.iter_succ_r. Qed.

Lemma phrases_state (n : nat) (w : World) : snd (drawn n w) = state_after n w.
Proof.
  revert w. induction n as [|k IH]; intros w; [reflexivity|].
  rewrite after_draws_succ_r, <- IH. simpl. unfold bind, ret, after_draw.
  destruct (faker_random_words 2 w) as [p w1]. simpl.
  destruct (phrases faker_random_words k w1) as [ps w2]. reflexivity.
Qed.

Lemma phrases_nth (n i : nat) (w : World) :
  i < n ->
  nth_error (fst (drawn n w)) i = Some (fst (faker_random_words 2 (state_after i w))).
Proof.
  revert i w. induction n as [|k IH]; intros i w Hi; [lia|].
  simpl. unfold bind, ret.
  destruct (faker_random_words 2 w) as [p w1] eqn:Ew.
  destruct (phrases faker_random_words k w1) as [ps w2] eqn:Ek.
  destruct i as [|j].
  - simpl. now rewrite Ew.
  - rewrite after_draws_succ_r. unfold after_draw. rewrite Ew.
    cbn [fst snd nth_error].
    rewrite <- (IH j w1) by lia. now rewrite Ek.
Qed.

Lemma phrases_app (m k : nat) (w : World) :
  drawn (m + k) w
  = (fst (drawn m w) ++ fst (drawn k (snd (drawn m w))),
     snd (drawn k (snd (drawn m w)))).
Proof.
  revert w. induction m as [|j IH]; intros w; simpl.
  - now destruct (phrases faker_random_words k w).
  - unfold bind, ret. destruct (faker_random_words 2 w) as [p w1].
    rewrite (IH w1). destruct (phrases faker_random_words j w1) as [ps w2].
    reflexivity.
Qed.

Lemma newPartitionKeys_state_after (n : nat) (w : World) :
  snd (keys n w) = state_after n w.
Proof. rewrite newPartitionKeys_phrases. apply phrases_state. Qed.

Lemma newPartitionKeys_firstn (m k : nat) (w : World) :
  firstn m (fst (keys (m + k) w)) = fst (keys m w).
Proof.
  rewrite !newPartitionKeys_phrases, phrases_app. simpl.
  rewrite List.map_app, firstn_app, length_map, phrases_length.
  rewrite Nat.sub_diag, firstn_O, app_nil_r.
  apply firstn_all2. now rewrite length_map, phrases_length.
Qed.

(** X5. The generator calls [faker.random.words(2)] once per requested
    label and nothing else touches the state: after [n] labels the state is
    the one [n] calls in a row leave. With a count of 0 the result is the
    empty array and the state is untouched. *)
Theorem newPartitionKeys_state (n : nat) (w : World) :
  snd (newPartitionKeys faker_random_words n w)
  = after_draws faker_random_words n w /\
  newPartitionKeys faker_random_words 0 w = ([], w).
Proof.
  split; [apply newPartitionKeys_state_after | reflexivity].
Qed.

(** X6. The labels come in the order of the calls: the entry at index [i]
    is the label of the phrase that call number [i] of
    [faker.random.words(2)] returns. *)
Theorem newPartitionKeys_nth (n i : nat) (w : World) :
  i < n ->
  nth_error (fst (keys n w)) i
  = Some (Some (label (fst (faker_random_words 2 (state_after i w))))).
Proof.
  intros Hi. rewrite newPartitionKeys_phrases. simpl.
  rewrite nth_error_map, (phrases_nth n i w Hi). reflexivity.
Qed.

(** X7. Generating [m + k] labels is generating [m] labels and then [k]
    more from the state the first run leaves: a longer run starts with the
    labels of a shorter one. *)
Theorem newPartitionKeys_add (m k : nat) (w : World) :
  newPartitionKeys faker_random_words (m + k) w
  = (fst (keys m w) ++ fst (keys k (snd (keys m w))),
     snd (keys k (snd (keys m w)))).
Proof.
  rewrite !newPartitionKeys_phrases, phrases_app. simpl.
  now rewrite List.map_app.
Qed.

(** X8. Whatever faker returns, no generated label has a space or an
    upper-case letter. *)
Theorem newPartitionKeys_clean (n : nat) (w : World) :
  Forall (fun l => JsString.lacks JsString.space l = true /\
                   JsString.is_lowercase l = true)
         (JsArray.values (fst (keys n w))).
Proof.
  rewrite newPartitionKeys_values. apply Forall_map, Forall_forall.
  intros p _. split; [apply label_lacks_space | apply label_is_lowercase].
Qed.

End GeneratorProperties.

Lemma newPartitionKeys_nth_witness :
  1 < 2 /\
  nth_error (fst (newPartitionKeys Tape.words 2 Tape.sample)) 1 = Some (Some "baz-qux").
Proof.
  split; [apply le_n|].
  exact (newPartitionKeys_nth Tape.t Tape.words 2 1 Tape.sample (le_n 2)).
Defined.

(** ** Further properties of the stories *)

(** Enters the first render of a story and names what the generator
    returns, keeping the equation. *)
Ltac enter_story :=
  unfold keys_of, mount, TruePartitions, FalsePartitions, SkippedPartitions,
    FewPartitions, TruePartitions_subset, FalsePartitions_subset,
    SkippedPartitions_subset, FewPartitions_subset, useMemo, bind, ret.

Section StoryProperties.
Variable World : Type.
Variable faker_random_words : nat -> M World string.

Local Abbreviation keys := (newPartitionKeys faker_random_words).
Local Abbreviation state_after := (after_draws faker_random_words).
Local Abbreviation True_ := (TruePartitions faker_random_words).
Local Abbreviation False_ := (FalsePartitions faker_random_words).
Local Abbreviation Skipped_ := (SkippedPartitions faker_random_words).
Local Abbreviation Few_ := (FewPartitions faker_random_words).

Lemma keys_of_stories (w : World) :
  keys_of True_ w = fst (keys PARTITION_COUNT w) /\
  keys_of False_ w = fst (keys PARTITION_COUNT w) /\
  keys_of Skipped_ w = fst (keys PARTITION_COUNT w) /\
  keys_of Few_ w = fst (keys 2 w).
Proof.
  repeat split; enter_story;
    match goal with
    | |- context [newPartitionKeys ?f ?n ?w] => destruct (newPartitionKeys f n w)
    end; reflexivity.
Qed.

Lemma state_of_stories (w : World) :
  snd (True_ None w) = snd (keys PARTITION_COUNT w) /\
  snd (False_ None w) = snd (keys PARTITION_COUNT w) /\
  snd (Skipped_ None w) = snd (keys PARTITION_COUNT w) /\
  snd (Few_ None w) = snd (keys 2 w).
Proof.
  repeat split; enter_story;
    match goal with
    | |- context [newPartitionKeys ?f ?n ?w] => destruct (newPartitionKeys f n w)
    end; reflexivity.
Qed.

(** X9. Mounted from the same state of the generator, [TruePartitions],
    [FalsePartitions] and [SkippedPartitions] get the same partition keys,
    and the two keys of [FewPartitions] are the first two of them. *)
Theorem stories_share_keys (w : World) :
  keys_of False_ w = keys_of True_ w /\
  keys_of Skipped_ w = keys_of True_ w /\
  keys_of Few_ w = firstn 2 (keys_of True_ w).
Proof.
  destruct (keys_of_stories w) as (-> & -> & -> & ->).
  repeat split.
  change PARTITION_COUNT with (2 + 298).
  symmetry. apply newPartitionKeys_firstn.
Qed.

(** X10. The first render of a story advances the generator by exactly as
    many calls of [faker.random.words(2)] as the story has partition keys:
    [PARTITION_COUNT] for [TruePartitions], [FalsePartitions] and
    [SkippedPartitions], and 2 for [FewPartitions]. *)
Theorem mount_state (w : World) :
  snd (True_ None w) = state_after PARTITION_COUNT w /\
  snd (False_ None w) = state_after PARTITION_COUNT w /\
  snd (Skipped_ None w) = state_after PARTITION_COUNT w /\
  snd (Few_ None w) = state_after 2 w.
Proof.
  destruct (state_of_stories w) as (-> & -> & -> & ->).
  repeat split; apply newPartitionKeys_state_after.
Qed.

(** X11. The first render of a story stores the subset it gives to the
    component in the memo cell; a later render with that cell returns the
    same tree and the same cell, and leaves the generator as it finds it:
    no new partition keys are drawn. *)
Theorem mount_then_rerender (w w' : World) :
  Forall (fun story : Story World =>
            let cell := snd (fst (story None w)) in
            cell = Some (subset (mount story w)) /\
            story cell w' = (fst (story None w), w'))
         (stories faker_random_words).
Proof.
  each_story; enter_story;
    match goal with
    | |- context [newPartitionKeys ?f ?n ?w] => destruct (newPartitionKeys f n w)
    end; split; reflexivity.
Qed.

End StoryProperties.
